(** * LiteRT: the Rust wrapper header [litert/rust/wrapper.h]

    The header is an include guard around thirteen [#include] lines.  This
    development embeds the header as the list of its preprocessor lines
    (blank lines and the [// IWYU pragma: keep] comments carry no meaning
    and are left out), gives the lines the meaning the C preprocessor gives
    them (conditional stack, macro table, file lookup with a nesting
    budget) and proves what resolving the header does to a compilation
    unit.

    The thirteen headers under [litert/c/] are not part of the sources at
    hand: the file system is a parameter of every definition. *)

From stdpp Require Import gmap strings list.

(** ** Lines of a header

    [Ifndef], [Define], [Endif] and [Include] are the four directives the
    wrapper is made of.  Everything that is not a directive is C text: a
    declaration ([Decl], a prototype or a type, which only makes a name
    visible) or a definition ([Defn], which makes the compiler emit code or
    storage for the name). *)
Inductive line : Type :=
  | Ifndef (m : string)
  | Define (m : string)
  | Endif
  | Include (path : string)
  | Decl (name : string)
  | Defn (name : string).

#[global] Instance line_eq_dec : EqDecision line.
Proof. solve_decision. Defined.

(** ** [src/litert/rust/wrapper.h], line by line *)

Definition THIRD_PARTY_ODML_LITERT_LITERT_RUST_WRAPPER_H_ : string :=
  "THIRD_PARTY_ODML_LITERT_LITERT_RUST_WRAPPER_H_".

Abbreviation GUARD := THIRD_PARTY_ODML_LITERT_LITERT_RUST_WRAPPER_H_.

Definition wrapper_h : list line :=
  [ Ifndef "THIRD_PARTY_ODML_LITERT_LITERT_RUST_WRAPPER_H_";
    Define "THIRD_PARTY_ODML_LITERT_LITERT_RUST_WRAPPER_H_";
    Include "../c/internal/litert_logging.h";
    Include "../c/litert_common.h";
    Include "../c/litert_compiled_model.h";
    Include "../c/litert_environment.h";
    Include "../c/litert_environment_options.h";
    Include "../c/litert_event.h";
    Include "../c/litert_metrics.h";
    Include "../c/litert_model.h";
    Include "../c/litert_op_options.h";
    Include "../c/litert_opaque_options.h";
    Include "../c/litert_options.h";
    Include "../c/litert_tensor_buffer.h";
    Include "../c/litert_tensor_buffer_requirements.h";
    Endif ].

(** ** The compilation unit *)

Record cu_state : Type := CU {
  macros : gset string;     (* names with a live [#define] *)
  visible : list string;    (* declarations seen so far, in order *)
  emitted : list string     (* definitions the compiler has emitted *)
}.

Definition fresh : cu_state :=
  {| macros := ∅; visible := []; emitted := [] |}.

Definition define (m : string) (s : cu_state) : cu_state :=
  {| macros := {[ m ]} ∪ macros s; visible := visible s; emitted := emitted s |}.

Definition declare (n : string) (s : cu_state) : cu_state :=
  {| macros := macros s; visible := visible s ++ [n]; emitted := emitted s |}.

Definition emit (n : string) (s : cu_state) : cu_state :=
  {| macros := macros s; visible := visible s ++ [n]; emitted := emitted s ++ [n] |}.

(** What the preprocessor reports when it gives up. *)
Inductive diagnostic : Type :=
  | FileNotFound (path : string)
  | IncludeTooDeep (path : string)
  | EndifWithoutIf
  | UnterminatedIf.

#[global] Instance diagnostic_eq_dec : EqDecision diagnostic.
Proof. solve_decision. Defined.

(** A run either reaches the end of the text, or stops at the first
    diagnostic; in both cases the compilation unit is left as it was at
    that point. *)
Inductive outcome : Type :=
  | Ok (s : cu_state)
  | Err (e : diagnostic) (s : cu_state).

Definition state_of (o : outcome) : cu_state :=
  match o with Ok s => s | Err _ s => s end.

Definition diag (o : outcome) : option diagnostic :=
  match o with Ok _ => None | Err e _ => Some e end.

Definition is_ok (o : outcome) : Prop := diag o = None.

#[global] Instance is_ok_dec (o : outcome) : Decision (is_ok o).
Proof. unfold is_ok. apply _. Defined.

Definition and_then (o : outcome) (k : cu_state → outcome) : outcome :=
  match o with Ok s => k s | Err e s => Err e s end.

Definition map_state (f : cu_state → cu_state) (o : outcome) : outcome :=
  match o with Ok s => Ok (f s) | Err e s => Err e (f s) end.

(** ** The preprocessor

    [conds] is the stack of open conditionals, innermost first; an entry is
    [true] when its test held.  Text is live when every open conditional
    held. *)
Definition live (conds : list bool) : bool := forallb id conds.

Section Preprocessor.
(** How an [#include] is resolved is a parameter of the line machine. *)
Variable inc : string → cu_state → outcome.

Fixpoint run (ls : list line) (conds : list bool) (s : cu_state) : outcome :=
  match ls with
  | [] => match conds with [] => Ok s | _ :: _ => Err UnterminatedIf s end
  | l :: rest =>
    match l with
    | Ifndef m => run rest (bool_decide (m ∉ macros s) :: conds) s
    | Endif =>
      match conds with
      | [] => Err EndifWithoutIf s
      | _ :: conds' => run rest conds' s
      end
    | Define m => run rest conds (if live conds then define m s else s)
    | Decl n => run rest conds (if live conds then declare n s else s)
    | Defn n => run rest conds (if live conds then emit n s else s)
    | Include p =>
      if live conds then and_then (inc p s) (run rest conds)
      else run rest conds s
    end
  end.

(** Resolving a list of files one after the other. *)
Fixpoint each (ps : list string) (s : cu_state) : outcome :=
  match ps with
  | [] => Ok s
  | p :: ps' => and_then (inc p s) (each ps')
  end.
End Preprocessor.

Section Resolution.
(** The file system: the lines of the file a path names, if there is one.
    Paths are the strings written after [#include]. *)
Variable fs : string → option (list line).

(** [include depth p s]: resolve [#include "p"] with [depth] levels of
    nesting left.  Preprocessors bound the nesting of includes (the C
    standard asks for at least 15 levels, GCC and Clang stop at 200); the
    bound also makes a file that includes itself stop with a diagnostic. *)
Fixpoint include (depth : nat) (p : string) (s : cu_state) : outcome :=
  match depth with
  | 0 => Err (IncludeTooDeep p) s
  | S depth' =>
    match fs p with
    | None => Err (FileNotFound p) s
    | Some ls => run (include depth') ls [] s
    end
  end.

(** Resolving the wrapper: its lines are run with [depth] levels left for
    the files it includes. *)
Definition resolve (depth : nat) (s : cu_state) : outcome :=
  run (include depth) wrapper_h [] s.

(** Resolving it [n] times in a row, in one compilation unit. *)
Fixpoint resolve_n (depth n : nat) (s : cu_state) : outcome :=
  match n with
  | 0 => Ok s
  | S n' => and_then (resolve depth s) (resolve_n depth n')
  end.
End Resolution.

(** ** The declaration groups

    The manifest of declaration groups as the specification gives it: the
    thirteen rows of its table of external interfaces, in the order of the
    table.  It is compared below with the include lines of the header. *)
Inductive group : Type :=
  | Logging
  | Common
  | CompiledModel
  | Environment
  | EnvironmentOptions
  | Event
  | Metrics
  | Model
  | OpOptions
  | OpaqueOptions
  | Options
  | TensorBuffer
  | TensorBufferRequirements.

Definition manifest : list group :=
  [ Logging; Common; CompiledModel; Environment; EnvironmentOptions; Event;
    Metrics; Model; OpOptions; OpaqueOptions; Options; TensorBuffer;
    TensorBufferRequirements ].

#[global] Instance group_eq_dec : EqDecision group.
Proof. solve_decision. Defined.

(** The header that carries each group, as the wrapper spells its path. *)
Definition group_path (g : group) : string :=
  match g with
  | Logging => "../c/internal/litert_logging.h"
  | Common => "../c/litert_common.h"
  | CompiledModel => "../c/litert_compiled_model.h"
  | Environment => "../c/litert_environment.h"
  | EnvironmentOptions => "../c/litert_environment_options.h"
  | Event => "../c/litert_event.h"
  | Metrics => "../c/litert_metrics.h"
  | Model => "../c/litert_model.h"
  | OpOptions => "../c/litert_op_options.h"
  | OpaqueOptions => "../c/litert_opaque_options.h"
  | Options => "../c/litert_options.h"
  | TensorBuffer => "../c/litert_tensor_buffer.h"
  | TensorBufferRequirements => "../c/litert_tensor_buffer_requirements.h"
  end.

Definition group_paths : list string := group_path <$> manifest.

(** ** The shape of a guarded header *)

(** A header whose [body] is protected by the include guard [g]. *)
Definition guarded (g : string) (body : list line) : list line :=
  Ifndef g :: Define g :: body ++ [Endif].

(** Reading a header back as a guard and a body: the first two lines test
    and define one macro, the last line closes the conditional. *)
Definition split_guard (h : list line) : option (string * list line) :=
  match h with
  | Ifndef g :: Define g' :: rest =>
    match reverse rest with
    | Endif :: rbody =>
      if decide (g = g') then Some (g, reverse rbody) else None
    | _ => None
    end
  | _ => None
  end.

(** The entries of a header: its guard counts for one, each line of the
    body for one. *)
Definition entries (h : list line) : option nat :=
  match split_guard h with
  | Some (_, body) => Some (1 + length body)
  | None => None
  end.

(** The wrapper with its include lines replaced by [body]. *)
Definition wrapper_with (body : list line) : list line :=
  guarded GUARD body.

(** The include lines of the wrapper, lines 4 to 16 of the file. *)
Definition wrapper_includes : list line :=
  match split_guard wrapper_h with
  | Some (_, body) => body
  | None => []
  end.

(** ** Resolution only ever adds to a compilation unit

    The lines of the machine define macros, append declarations and append
    definitions; none of them removes anything.  [extends s s'] says that
    [s'] is [s] with more of each. *)
Definition extends (s s' : cu_state) : Prop :=
  macros s ⊆ macros s'
  ∧ visible s `prefix_of` visible s'
  ∧ emitted s `prefix_of` emitted s'.


(** ** Groups that stand on their own

    A file is self-contained when whether it resolves, and the diagnostic
    when it does not, do not depend on what the compilation unit has seen
    before. *)
Definition self_contained (fs : string → option (list line)) (depth : nat)
    (p : string) : Prop :=
  ∀ s s', diag (include fs depth p s) = diag (include fs depth p s').

(** A file is resolvable when it resolves whatever the compilation unit has
    seen before. *)
Definition resolvable (fs : string → option (list line)) (depth : nat)
    (p : string) : Prop :=
  ∀ s, is_ok (include fs depth p s).

(** The first diagnostic met when each file of [ps] is resolved on its own
    from [s], in the order of the list. *)
Definition first_failure (inc : string → cu_state → outcome)
    (ps : list string) (s : cu_state) : option diagnostic :=
  head (omap (λ p, diag (inc p s)) ps).

(** Two outcomes that differ at most in the wrapper's guard being
    recorded. *)
Definition same_up_to_guard (o1 o2 : outcome) : Prop :=
  map_state (define GUARD) o1 = map_state (define GUARD) o2.

(** Resolving the wrapper comes to the same as resolving the thirteen
    groups themselves, once each. *)
Definition header_acts_as_groups (fs : string → option (list line))
    (depth : nat) (s : cu_state) : Prop :=
  same_up_to_guard (resolve fs depth s)
                   (each (include fs depth) group_paths s).

(** ** What the groups declare *)

(** Modelled from the spec: the thirteen headers under [litert/c/] are not
    among the sources.  The specification describes each as "an independent
    leaf declaring its own types and functions": the header of a group is a
    list of declarations and includes nothing.  A table gives the
    declarations of each group; a group without an entry has no header. *)
Definition leaf_file (ds : list string) : list line := Decl <$> ds.

Definition carries (fs : string → option (list line))
    (groups : group → option (list string)) : Prop :=
  ∀ g, fs (group_path g) = leaf_file <$> groups g.

Definition group_decls (groups : group → option (list string)) (g : group)
    : list string :=
  default [] (groups g).

Definition all_decls (groups : group → option (list string)) : list string :=
  mjoin (group_decls groups <$> manifest).

(** No declaration of any of the thirteen groups is visible yet. *)
Definition unprocessed (groups : group → option (list string))
    (s : cu_state) : Prop :=
  Forall (λ n, n ∉ visible s) (all_decls groups).

#[global] Instance unprocessed_dec groups s : Decision (unprocessed groups s).
Proof. unfold unprocessed. apply _. Defined.

(** The groups declare names of their own: no name twice in a group, no
    name in two groups. *)
Definition independent (groups : group → option (list string)) : Prop :=
  NoDup (all_decls groups).

#[global] Instance independent_dec groups : Decision (independent groups).
Proof. unfold independent. apply _. Defined.

(** How many times a name has been declared. *)
Definition occurrences (n : string) (l : list string) : nat :=
  length (filter (n =.) l).

Definition declare_all (ds : list string) (s : cu_state) : cu_state :=
  {| macros := macros s; visible := visible s ++ ds; emitted := emitted s |}.

(** A name that resolution has brought into the compilation unit: a
    declaration that was not visible before, or a macro that was not
    defined before. *)
Definition introduces (s s' : cu_state) (n : string) : Prop :=
  (n ∈ visible s' ∧ n ∉ visible s) ∨ (n ∈ macros s' ∧ n ∉ macros s).

(** ** Headers that only declare *)

Definition is_defn (l : line) : bool :=
  match l with Defn _ => true | _ => false end.

Definition is_define (l : line) : bool :=
  match l with Define _ => true | _ => false end.

(** No line of the text makes the compiler emit anything. *)
Definition emits_nothing (ls : list line) : Prop :=
  Forall (λ l, is_defn l = false) ls.

(** No line of the text defines a macro. *)
Definition defines_nothing (ls : list line) : Prop :=
  Forall (λ l, is_define l = false) ls.

#[global] Instance emits_nothing_dec ls : Decision (emits_nothing ls).
Proof. unfold emits_nothing. apply _. Defined.

#[global] Instance defines_nothing_dec ls : Decision (defines_nothing ls).
Proof. unfold defines_nothing. apply _. Defined.


(** ** A sample to run the definitions on *)

(** The file system that holds the headers of a table of groups, and
    nothing else. *)
Definition group_of_path (p : string) : option group :=
  head (filter (λ g, group_path g = p) manifest).

Definition leaf_fs (groups : group → option (list string)) (p : string)
    : option (list line) :=
  g ← group_of_path p; leaf_file <$> groups g.

(** The table with the header of one group removed. *)
Definition without (g : group) (groups : group → option (list string))
    : group → option (list string) :=
  λ g', if decide (g' = g) then None else groups g'.

(** A small table to run the definitions on: a declaration or two of the
    LiteRT C API per group. *)
Definition sample_groups (g : group) : option (list string) :=
  Some match g with
       | Logging => ["LiteRtLogger"; "LiteRtGetMinLoggerSeverity"]
       | Common => ["LiteRtStatus"; "LiteRtGetStatusString"]
       | CompiledModel => ["LiteRtCompiledModel"; "LiteRtRunCompiledModel"]
       | Environment => ["LiteRtEnvironment"]
       | EnvironmentOptions => ["LiteRtEnvironmentOptions"]
       | Event => ["LiteRtEvent"]
       | Metrics => ["LiteRtMetrics"]
       | Model => ["LiteRtModel"]
       | OpOptions => ["LiteRtGetAddFusedActivationOption"]
       | OpaqueOptions => ["LiteRtOpaqueOptions"]
       | Options => ["LiteRtOptions"]
       | TensorBuffer => ["LiteRtTensorBuffer"]
       | TensorBufferRequirements => ["LiteRtTensorBufferRequirements"]
       end.

Definition sample_fs : string → option (list line) := leaf_fs sample_groups.

(** A compilation unit in which only the wrapper's guard is defined, as
    after [-D] on the command line or an earlier [#define], or after a
    resolution that stopped at its first include line. *)
Definition guard_predefined : cu_state := define GUARD fresh.

(** The sample file system after [litert_event.h] has been removed. *)
Definition event_removed : group → option (list string) :=
  without Event sample_groups.

Definition event_removed_fs : string → option (list line) :=
  leaf_fs event_removed.

(** The sample declarations of the first [k] groups of the manifest. *)
Definition sample_decls_upto (k : nat) : list string :=
  mjoin (group_decls sample_groups <$> take k manifest).

(** The compilation unit as a first resolution leaves it when it stops at
    the missing [litert_event.h]. *)
Definition after_failed_resolution : cu_state :=
  state_of (resolve event_removed_fs 1 fresh).

(** A file system of another shape, closer to headers as they are usually
    written: the common header carries its own guard, the model header
    carries its own guard and includes the common header, and the other
    eleven headers are empty. *)
Definition nested_fs (p : string) : option (list line) :=
  if decide (p = group_path Common) then
    Some (guarded "LITERT_COMMON_H_" [Decl "LiteRtStatus"])
  else if decide (p = group_path Model) then
    Some (guarded "LITERT_MODEL_H_"
                  [Include (group_path Common); Decl "LiteRtModel"])
  else if decide (p ∈ group_paths) then Some []
  else None.

(** ** The nesting budget and inclusion cycles *)


(** The wrapper as the headers under [litert/c/] would spell its path. *)
Definition wrapper_path : string := "../rust/wrapper.h".

(** The sample file system with a cycle: the event header includes the
    wrapper back before it declares anything. *)
Definition cyclic_fs (p : string) : option (list line) :=
  if decide (p = wrapper_path) then Some wrapper_h
  else if decide (p = group_path Event) then
    Some [Include wrapper_path; Decl "LiteRtEvent"]
  else sample_fs p.

(** The sample file system with two headers removed. *)
Definition event_and_model_removed_fs : string → option (list line) :=
  leaf_fs (without Model event_removed).

(** * Facts about the line machine *)

Lemma and_then_Ok (o : outcome) : and_then o Ok = o.
Proof. by destruct o. Qed.

Lemma and_then_assoc (o : outcome) (k1 k2 : cu_state → outcome) :
  and_then (and_then o k1) k2 = and_then o (λ s, and_then (k1 s) k2).
Proof. by destruct o. Qed.

Lemma wrapper_includes_eq : wrapper_includes = Include <$> group_paths.
Proof. reflexivity. Qed.

Lemma wrapper_h_eq : wrapper_h = wrapper_with (Include <$> group_paths).
Proof. reflexivity. Qed.

Section MachineFacts.
Variable inc : string → cu_state → outcome.

(** Live include lines are resolved one after the other. *)
Lemma run_includes_live (ps : list string) (rest : list line) conds s :
  live conds = true →
  run inc ((Include <$> ps) ++ rest) conds s
  = and_then (each inc ps s) (run inc rest conds).
Proof.
  intros Hlive. revert s.
  induction ps as [|p ps IH]; intros s; [done|].
  cbn [fmap list_fmap app run each]. rewrite Hlive.
  destruct (inc p s) as [s'|e s']; cbn [and_then]; [apply IH | done].
Qed.

(** Include lines under a failed conditional are skipped. *)
Lemma run_includes_dead (ps : list string) (rest : list line) conds s :
  live conds = false →
  run inc ((Include <$> ps) ++ rest) conds s = run inc rest conds s.
Proof.
  intros Hdead. induction ps as [|p ps IH]; [done|].
  cbn [fmap list_fmap app run]. by rewrite Hdead.
Qed.

(** A guarded list of includes: nothing happens when the guard is already
    defined; otherwise the guard is defined and the files are resolved in
    order. *)
Lemma run_guarded (g : string) (ps : list string) s :
  run inc (guarded g (Include <$> ps)) [] s
  = if bool_decide (g ∈ macros s) then Ok s else each inc ps (define g s).
Proof.
  unfold guarded. cbn [run].
  destruct (decide (g ∈ macros s)) as [Hin|Hnin].
  - rewrite (bool_decide_eq_true_2 _ Hin).
    rewrite bool_decide_eq_false_2 by (by intros Hn; apply Hn).
    cbn [run live forallb id andb].
    by rewrite run_includes_dead.
  - rewrite (bool_decide_eq_false_2 _ Hnin).
    rewrite (bool_decide_eq_true_2 _ Hnin).
    cbn [run live forallb id andb].
    rewrite run_includes_live by done.
    cbn [run]. apply and_then_Ok.
Qed.

Lemma each_app (ps qs : list string) s :
  each inc (ps ++ qs) s = and_then (each inc ps s) (each inc qs).
Proof.
  revert s. induction ps as [|p ps IH]; intros s; [done|].
  cbn [app each]. rewrite and_then_assoc.
  destruct (inc p s); cbn [and_then]; [apply IH | done].
Qed.
End MachineFacts.

(** ** Resolution only ever adds to a compilation unit *)

#[global] Instance extends_preorder : PreOrder extends.
Proof.
  split.
  - intros s. by repeat split.
  - intros s1 s2 s3 (Hm & Hv & He) (Hm' & Hv' & He').
    repeat split; by etrans.
Qed.

Lemma extends_define m s : extends s (define m s).
Proof. repeat split; cbn; [set_solver | done | done]. Qed.

Lemma extends_declare n s : extends s (declare n s).
Proof. repeat split; cbn; [done | by apply prefix_app_r | done]. Qed.

Lemma extends_emit n s : extends s (emit n s).
Proof. repeat split; cbn; [done | by apply prefix_app_r | by apply prefix_app_r]. Qed.

Create HintDb cu discriminated.
#[global] Hint Resolve extends_define extends_declare extends_emit : cu.

Lemma run_extends (inc : string → cu_state → outcome) :
  (∀ p s, extends s (state_of (inc p s))) →
  ∀ ls conds s, extends s (state_of (run inc ls conds s)).
Proof.
  intros Hinc ls.
  induction ls as [|l ls IH]; intros conds s.
  - by destruct conds.
  - destruct l; cbn [run].
    + apply IH.
    + destruct (live conds); [|apply IH].
      etrans; [|apply IH]. auto with cu.
    + destruct conds; [done | apply IH].
    + destruct (live conds); [|apply IH].
      specialize (Hinc path s).
      destruct (inc path s) as [s'|e s']; cbn [and_then state_of] in *; [|done].
      etrans; [exact Hinc | apply IH].
    + destruct (live conds); [|apply IH].
      etrans; [|apply IH]. auto with cu.
    + destruct (live conds); [|apply IH].
      etrans; [|apply IH]. auto with cu.
Qed.

Lemma each_extends (inc : string → cu_state → outcome) :
  (∀ p s, extends s (state_of (inc p s))) →
  ∀ ps s, extends s (state_of (each inc ps s)).
Proof.
  intros Hinc ps. induction ps as [|p ps IH]; intros s; [done|].
  cbn [each]. specialize (Hinc p s).
  destruct (inc p s) as [s'|e s']; cbn [and_then state_of] in *; [|done].
  etrans; [exact Hinc | apply IH].
Qed.

Section ResolutionFacts.
Variable fs : string → option (list line).

Lemma include_extends depth p s : extends s (state_of (include fs depth p s)).
Proof.
  revert p s. induction depth as [|depth IH]; intros p s; cbn [include].
  - done.
  - destruct (fs p) as [ls|]; [|done].
    by apply run_extends.
Qed.

(** The wrapper, in one equation: a no-op under its guard, and otherwise
    the guard followed by the thirteen files in the order of the text. *)
Lemma resolve_unfold depth s :
  resolve fs depth s
  = if bool_decide (GUARD ∈ macros s) then Ok s
    else each (include fs depth) group_paths (define GUARD s).
Proof. unfold resolve. rewrite wrapper_h_eq. apply run_guarded. Qed.

Lemma resolve_guarded depth s :
  GUARD ∈ macros s → resolve fs depth s = Ok s.
Proof. intros Hin. by rewrite resolve_unfold, bool_decide_eq_true_2. Qed.

Lemma resolve_first depth s :
  GUARD ∉ macros s →
  resolve fs depth s = each (include fs depth) group_paths (define GUARD s).
Proof. intros Hnin. by rewrite resolve_unfold, bool_decide_eq_false_2. Qed.

Lemma resolve_extends depth s : extends s (state_of (resolve fs depth s)).
Proof.
  rewrite resolve_unfold. case_bool_decide; [done|].
  etrans; [apply (extends_define GUARD)|].
  apply each_extends, include_extends.
Qed.

(** Whatever the outcome, the guard is defined afterwards. *)
Lemma resolve_defines_guard depth s :
  GUARD ∈ macros (state_of (resolve fs depth s)).
Proof.
  rewrite resolve_unfold. case_bool_decide as Hin; [done|].
  pose proof (each_extends _ (include_extends depth) group_paths
                (define GUARD s)) as (Hm & _ & _).
  apply Hm. cbn. set_solver.
Qed.

Lemma resolve_n_guarded depth n s :
  GUARD ∈ macros s → resolve_n fs depth n s = Ok s.
Proof.
  intros Hin. induction n as [|n IH]; [done|].
  cbn [resolve_n]. by rewrite resolve_guarded.
Qed.
End ResolutionFacts.

(** * The header as written *)

#[global] Instance Include_inj : Inj (=) (=) Include.
Proof. by intros p q [= ->]. Qed.

Lemma group_path_inj (g g' : group) : group_path g = group_path g' → g = g'.
Proof. by destruct g, g'. Qed.

Lemma elem_of_manifest (g : group) : g ∈ manifest.
Proof. destruct g; apply (bool_decide_unpack _); by vm_compute. Qed.

Lemma NoDup_group_paths : NoDup group_paths.
Proof. apply (bool_decide_unpack _). by vm_compute. Qed.

Lemma guard_not_a_group_path : GUARD ∉ group_paths.
Proof. apply (bool_decide_unpack _). by vm_compute. Qed.

(** C8: the wrapper is an include guard around thirteen include lines, that
    is fourteen entries, and the thirteen lines name the groups of the
    manifest in the manifest's order: logging, common, compiled model,
    environment, environment options, event, metrics, model, op options,
    opaque options, options, tensor buffer, tensor buffer requirements. *)
Theorem wrapper_h_entries :
  split_guard wrapper_h = Some (GUARD, Include ∘ group_path <$> manifest)
  ∧ wrapper_h = guarded GUARD (Include ∘ group_path <$> manifest)
  ∧ length manifest = 13
  ∧ entries wrapper_h = Some 14
  ∧ NoDup wrapper_includes.
Proof.
  split; [reflexivity|]. split; [reflexivity|].
  split; [reflexivity|]. split; [reflexivity|].
  rewrite wrapper_includes_eq.
  apply (NoDup_fmap_2 _), NoDup_group_paths.
Qed.

(** * Idempotence *)

(** C2: for every [n >= 1] and every initial state, resolving the wrapper
    [n] times in one compilation unit gives exactly the outcome of resolving
    it once; and resolving it again in the state a resolution has left,
    whether that resolution succeeded or stopped at a diagnostic, changes
    nothing. *)
Theorem resolve_idempotent (fs : string → option (list line))
    (depth n : nat) (s : cu_state) :
  1 ≤ n →
  resolve_n fs depth n s = resolve fs depth s
  ∧ resolve fs depth (state_of (resolve fs depth s))
    = Ok (state_of (resolve fs depth s)).
Proof.
  intros Hn.
  pose proof (resolve_defines_guard fs depth s) as Hg.
  split.
  - destruct n as [|n]; [lia|]. cbn [resolve_n].
    destruct (resolve fs depth s) as [s'|e s'] eqn:Hres; cbn [and_then]; [|done].
    by apply resolve_n_guarded.
  - by apply resolve_guarded.
Qed.

(** * Failure part way through *)

(** C10: in a first resolution (the guard is not yet defined), let the
    first [k-1] include lines resolve, reaching [s1], and let the [k]-th
    fail.  Then the wrapper stops with that very outcome; the state it
    stops in has the guard defined and still holds everything the first
    [k-1] groups made visible; it is not the state resolution started
    from. *)
Theorem failure_not_atomic (fs : string → option (list line)) (depth : nat)
    (s : cu_state) (k : nat) (p : string) (s1 : cu_state)
    (e : diagnostic) (st : cu_state) :
  GUARD ∉ macros s →
  1 ≤ k ≤ 13 →
  group_paths !! (k - 1) = Some p →
  each (include fs depth) (take (k - 1) group_paths) (define GUARD s) = Ok s1 →
  include fs depth p s1 = Err e st →
  resolve fs depth s = Err e st
  ∧ GUARD ∈ macros st
  ∧ (visible s1 `prefix_of` visible st)
  ∧ (st ≠ s).
Proof.
  intros Hfirst Hk Hp Hbefore Hfail.
  assert (Hres : resolve fs depth s = Err e st).
  { rewrite resolve_first by done.
    rewrite <- (take_drop_middle group_paths (k - 1) p Hp).
    rewrite each_app, Hbefore. cbn [and_then each]. by rewrite Hfail. }
  assert (Hg : GUARD ∈ macros st).
  { pose proof (resolve_defines_guard fs depth s) as Hg. by rewrite Hres in Hg. }
  repeat split; [done..| |].
  - pose proof (include_extends fs depth p s1) as (_ & Hv & _).
    by rewrite Hfail in Hv.
  - intros ->. done.
Qed.

(** * Which failures the wrapper reports *)

Section Failures.
Variable inc : string → cu_state → outcome.

Lemma each_all_ok (ps : list string) :
  (∀ p, p ∈ ps → ∀ s, is_ok (inc p s)) →
  ∀ s, ∃ s', each inc ps s = Ok s'.
Proof.
  induction ps as [|p ps IH]; intros Hok s; [by eexists|].
  cbn [each].
  pose proof (Hok p (list_elem_of_here _ _) s) as Hp.
  destruct (inc p s) as [s1|e s1]; [|done]. cbn [and_then].
  apply IH. intros q Hq. apply Hok. by apply list_elem_of_further.
Qed.

(** When the files do not look at the state, the diagnostic of a run over
    them is the first one they give on their own. *)
Lemma each_first_failure (ps : list string) :
  (∀ p, p ∈ ps → ∀ s s', diag (inc p s) = diag (inc p s')) →
  ∀ s s0, diag (each inc ps s) = first_failure inc ps s0.
Proof.
  unfold first_failure.
  induction ps as [|p ps IH]; intros Hsc s s0; [done|].
  cbn [each omap list_omap].
  pose proof (Hsc p (list_elem_of_here _ _) s s0) as Hp.
  destruct (inc p s) as [s1|e s1]; cbn [and_then diag] in *.
  - rewrite <- Hp. apply IH. intros q Hq. apply Hsc.
    by apply list_elem_of_further.
  - by rewrite <- Hp.
Qed.

Lemma first_failure_None (ps : list string) s :
  first_failure inc ps s = None ↔ ∀ p, p ∈ ps → is_ok (inc p s).
Proof.
  unfold first_failure, is_ok. rewrite head_None.
  induction ps as [|p ps IH]; cbn [omap list_omap].
  - split; [intros _ q Hq; by apply elem_of_nil in Hq | done].
  - destruct (diag (inc p s)) as [e|] eqn:Hd.
    + split; [done|]. intros Hall.
      specialize (Hall p (list_elem_of_here _ _)). congruence.
    + rewrite IH. split.
      * intros Hall q [->|Hq]%elem_of_cons; auto.
      * intros Hall q Hq. apply Hall. by apply list_elem_of_further.
Qed.

Lemma first_failure_Some (ps : list string) s e :
  first_failure inc ps s = Some e → ∃ p, p ∈ ps ∧ diag (inc p s) = Some e.
Proof.
  unfold first_failure.
  induction ps as [|p ps IH]; cbn [omap list_omap]; [done|].
  destruct (diag (inc p s)) as [e'|] eqn:Hd.
  - intros [= ->]. exists p. split; [apply list_elem_of_here | done].
  - intros (q & Hq & Hdq)%IH. exists q.
    split; [by apply list_elem_of_further | done].
Qed.
End Failures.

Lemma elem_of_group_paths (p : string) :
  p ∈ group_paths ↔ ∃ g, p = group_path g.
Proof.
  unfold group_paths. rewrite list_elem_of_fmap. split.
  - intros (g & -> & _). by exists g.
  - intros (g & ->). exists g. split; [done | apply elem_of_manifest].
Qed.

Lemma not_ok_include_0 fs p s : ¬ is_ok (include fs 0 p s).
Proof. done. Qed.

(** C5, as amended: let one of the thirteen headers be absent while the
    other twelve resolve.  Then resolving the wrapper in a compilation unit
    where its guard is not yet defined fails, and the diagnostic is "file
    not found" for the path of that group and of no other. *)
Theorem missing_group_detected (fs : string → option (list line))
    (depth : nat) (s : cu_state) (g : group) :
  GUARD ∉ macros s →
  fs (group_path g) = None →
  (∀ g', g' ≠ g → resolvable fs depth (group_path g')) →
  diag (resolve fs depth s) = Some (FileNotFound (group_path g))
  ∧ ∀ g', FileNotFound (group_path g') = FileNotFound (group_path g) → g' = g.
Proof.
  intros Hfirst Hmissing Hothers. split.
  - assert (Hin : group_path g ∈ group_paths).
    { apply elem_of_group_paths. by exists g. }
    apply list_elem_of_split in Hin as (before & after & Hsplit).
    assert (Hbefore : ∀ p, p ∈ before → ∀ s', is_ok (include fs depth p s')).
    { intros p Hp.
      assert (p ∈ group_paths) as (g' & ->)%elem_of_group_paths.
      { rewrite Hsplit. apply elem_of_app. by left. }
      apply Hothers. intros ->.
      pose proof NoDup_group_paths as Hnd. rewrite Hsplit in Hnd.
      apply NoDup_app in Hnd as (_ & Hdisj & _).
      apply (Hdisj _ Hp), list_elem_of_here. }
    destruct (each_all_ok _ before Hbefore (define GUARD s)) as (s1 & Hs1).
    rewrite resolve_first, Hsplit, each_app, Hs1 by done.
    cbn [and_then each].
    destruct depth as [|depth].
    + exfalso.
      destruct (decide (g = Logging)) as [->|Hne].
      * by apply (not_ok_include_0 fs (group_path Common) s), Hothers.
      * by apply (not_ok_include_0 fs (group_path Logging) s), Hothers.
    + cbn [include]. by rewrite Hmissing.
  - intros g' [= Heq]. by apply group_path_inj.
Qed.

(** C4, as amended: let each of the thirteen headers be self-contained.
    The diagnostic of resolving the wrapper is none when the guard is
    already defined, and otherwise the first diagnostic the thirteen groups
    give when resolved on their own, in the order of the wrapper.  So a
    resolution with the guard not yet defined fails exactly when some group
    is missing or does not resolve, and what the wrapper reports is always
    the unaltered diagnostic of a group. *)
Theorem failure_is_group_failure (fs : string → option (list line))
    (depth : nat) (s : cu_state) :
  (∀ g, self_contained fs depth (group_path g)) →
  diag (resolve fs depth s)
  = (if bool_decide (GUARD ∈ macros s) then None
     else first_failure (include fs depth) group_paths s)
  ∧ (GUARD ∉ macros s →
     ¬ is_ok (resolve fs depth s)
     ↔ ∃ g, ¬ is_ok (include fs depth (group_path g) s))
  ∧ (∀ e, diag (resolve fs depth s) = Some e →
          ∃ g, diag (include fs depth (group_path g) s) = Some e).
Proof.
  intros Hsc.
  assert (Hsc' : ∀ p, p ∈ group_paths →
            ∀ s1 s2, diag (include fs depth p s1) = diag (include fs depth p s2)).
  { intros p (g & ->)%elem_of_group_paths. apply Hsc. }
  assert (Hdiag : diag (resolve fs depth s)
    = if bool_decide (GUARD ∈ macros s) then None
      else first_failure (include fs depth) group_paths s).
  { rewrite resolve_unfold. case_bool_decide; [done|].
    by apply each_first_failure. }
  split; [exact Hdiag|]. split.
  - intros Hfirst. unfold is_ok at 1.
    rewrite Hdiag, bool_decide_eq_false_2 by done.
    rewrite first_failure_None. split.
    + intros Hnot.
      destruct (first_failure (include fs depth) group_paths s) as [e|] eqn:Hff.
      * apply first_failure_Some in Hff as (p & (g & ->)%elem_of_group_paths & Hd).
        exists g. unfold is_ok. congruence.
      * exfalso. apply Hnot. by apply first_failure_None.
    + intros (g & Hg) Hall. apply Hg, Hall, elem_of_group_paths. by exists g.
  - intros e. rewrite Hdiag. case_bool_decide; [done|].
    intros (p & (g & ->)%elem_of_group_paths & Hd)%first_failure_Some.
    by exists g.
Qed.

(** * Order of the include lines *)

Lemma Permutation_includes (body : list line) (ps : list string) :
  body ≡ₚ Include <$> ps → ∃ qs, body = Include <$> qs ∧ ps ≡ₚ qs.
Proof. apply Permutation_map_inv. Qed.

(** C6: let each of the thirteen headers be self-contained.  Put the
    thirteen include lines of the wrapper in any order: the permuted header
    resolves exactly when the header as written resolves. *)
Theorem order_independent (fs : string → option (list line)) (depth : nat)
    (body : list line) (s : cu_state) :
  body ≡ₚ wrapper_includes →
  (∀ g, self_contained fs depth (group_path g)) →
  is_ok (run (include fs depth) (wrapper_with body) [] s)
  ↔ is_ok (resolve fs depth s).
Proof.
  intros Hperm Hsc.
  rewrite wrapper_includes_eq in Hperm.
  apply Permutation_includes in Hperm as (qs & -> & Hperm).
  unfold wrapper_with. rewrite run_guarded, resolve_unfold.
  case_bool_decide; [done|].
  assert (Hsc' : ∀ ps, ps ≡ₚ group_paths → ∀ p, p ∈ ps →
            ∀ s1 s2, diag (include fs depth p s1) = diag (include fs depth p s2)).
  { intros ps Hps p Hp. rewrite Hps in Hp.
    apply elem_of_group_paths in Hp as (g & ->). apply Hsc. }
  unfold is_ok.
  rewrite (each_first_failure _ qs (Hsc' qs (symmetry Hperm)) _ s).
  rewrite (each_first_failure _ group_paths (Hsc' _ (reflexivity _)) _ s).
  rewrite !first_failure_None.
  by setoid_rewrite Hperm.
Qed.

(** * What resolution leaves alone *)

Section Frame.
Variable fs : string → option (list line).

Lemma run_emitted (inc : string → cu_state → outcome) :
  (∀ p s, emitted (state_of (inc p s)) = emitted s) →
  ∀ ls, emits_nothing ls →
  ∀ conds s, emitted (state_of (run inc ls conds s)) = emitted s.
Proof.
  intros Hinc ls. induction ls as [|l ls IH]; intros Hnone conds s.
  - by destruct conds.
  - apply Forall_cons in Hnone as [Hl Hls].
    destruct l; cbn [run].
    + by apply IH.
    + destruct (live conds); by rewrite IH.
    + destruct conds; [done | by apply IH].
    + destruct (live conds); [|by apply IH].
      specialize (Hinc path s).
      destruct (inc path s) as [s'|e s']; cbn [and_then state_of] in *; [|done].
      by rewrite IH.
    + destruct (live conds); by rewrite IH.
    + done.
Qed.

Lemma run_macros (inc : string → cu_state → outcome) :
  (∀ p s, macros (state_of (inc p s)) = macros s) →
  ∀ ls, defines_nothing ls →
  ∀ conds s, macros (state_of (run inc ls conds s)) = macros s.
Proof.
  intros Hinc ls. induction ls as [|l ls IH]; intros Hnone conds s.
  - by destruct conds.
  - apply Forall_cons in Hnone as [Hl Hls].
    destruct l; cbn [run].
    + by apply IH.
    + done.
    + destruct conds; [done | by apply IH].
    + destruct (live conds); [|by apply IH].
      specialize (Hinc path s).
      destruct (inc path s) as [s'|e s']; cbn [and_then state_of] in *; [|done].
      by rewrite IH.
    + destruct (live conds); by rewrite IH.
    + destruct (live conds); by rewrite IH.
Qed.

Lemma include_emitted :
  (∀ p ls, fs p = Some ls → emits_nothing ls) →
  ∀ depth p s, emitted (state_of (include fs depth p s)) = emitted s.
Proof.
  intros Hfs depth. induction depth as [|depth IH]; intros p s; [done|].
  cbn [include]. destruct (fs p) as [ls|] eqn:Hp; [|done].
  apply run_emitted; eauto.
Qed.

Lemma include_macros :
  (∀ p ls, fs p = Some ls → defines_nothing ls) →
  ∀ depth p s, macros (state_of (include fs depth p s)) = macros s.
Proof.
  intros Hfs depth. induction depth as [|depth IH]; intros p s; [done|].
  cbn [include]. destruct (fs p) as [ls|] eqn:Hp; [|done].
  apply run_macros; eauto.
Qed.

Lemma each_preserves {A} (f : cu_state → A) (inc : string → cu_state → outcome) :
  (∀ p s, f (state_of (inc p s)) = f s) →
  ∀ ps s, f (state_of (each inc ps s)) = f s.
Proof.
  intros Hinc ps. induction ps as [|p ps IH]; intros s; [done|].
  cbn [each]. specialize (Hinc p s).
  destruct (inc p s) as [s'|e s']; cbn [and_then state_of] in *; [|done].
  by rewrite IH.
Qed.
End Frame.

Lemma wrapper_h_emits_nothing : emits_nothing wrapper_h.
Proof. apply (bool_decide_unpack _). by vm_compute. Qed.

(** C7: let no header of the file system hold a definition (headers only
    declare).  Then resolving the wrapper, whether it succeeds or stops at a
    diagnostic, emits nothing: the definitions of the compilation unit are
    what they were.  What was defined and visible before is still there;
    and when the headers define no macros either, the macro table changes at
    most by the wrapper's own guard. *)
Theorem resolve_frame (fs : string → option (list line)) (depth : nat)
    (s : cu_state) :
  (∀ p ls, fs p = Some ls → emits_nothing ls) →
  emits_nothing wrapper_h
  ∧ emitted (state_of (resolve fs depth s)) = emitted s
  ∧ extends s (state_of (resolve fs depth s))
  ∧ ((∀ p ls, fs p = Some ls → defines_nothing ls) →
     macros (state_of (resolve fs depth s)) ∖ {[GUARD]} = macros s ∖ {[GUARD]}).
Proof.
  intros Hdecl. split; [apply wrapper_h_emits_nothing|].
  split; [|split; [apply resolve_extends|]].
  - rewrite resolve_unfold. case_bool_decide; [done|].
    rewrite (each_preserves emitted); [done|].
    by apply include_emitted.
  - intros Hnodef. rewrite resolve_unfold. case_bool_decide; [done|].
    rewrite (each_preserves macros).
    { apply set_eq. intros x. cbn.
      rewrite !elem_of_difference, elem_of_union. tauto. }
    by apply include_macros.
Qed.

(** * Groups as leaves *)

Lemma define_define m s : define m (define m s) = define m s.
Proof.
  unfold define. cbn. f_equal.
  apply set_eq. intros x. rewrite !elem_of_union. tauto.
Qed.

Lemma declare_all_nil s : declare_all [] s = s.
Proof. destruct s. unfold declare_all. cbn. by rewrite app_nil_r. Qed.

Lemma declare_all_app ds ds' s :
  declare_all ds' (declare_all ds s) = declare_all (ds ++ ds') s.
Proof. unfold declare_all. cbn. by rewrite app_assoc. Qed.

Lemma run_leaf_file (inc : string → cu_state → outcome) ds s :
  run inc (leaf_file ds) [] s = Ok (declare_all ds s).
Proof.
  revert s. induction ds as [|n ds IH]; intros s.
  - by rewrite declare_all_nil.
  - cbn [leaf_file fmap list_fmap run live forallb].
    fold (leaf_file ds). rewrite IH.
    unfold declare_all, declare. cbn. by rewrite <- app_assoc.
Qed.

Lemma occurrences_absent n l : n ∉ l → occurrences n l = 0.
Proof.
  unfold occurrences. induction l as [|x l IH]; [done|].
  intros [Hx Hl]%not_elem_of_cons.
  rewrite filter_cons_False by done. auto.
Qed.

Lemma occurrences_NoDup n l : NoDup l → n ∈ l → occurrences n l = 1.
Proof.
  unfold occurrences. induction 1 as [|x l Hx Hnd IH]; [by intros ?%elem_of_nil|].
  intros [->|Hn]%elem_of_cons.
  - rewrite filter_cons_True by done. cbn.
    pose proof (occurrences_absent x l Hx) as Hzero.
    unfold occurrences in Hzero. by rewrite Hzero.
  - rewrite filter_cons_False; [by apply IH|].
    intros ->. done.
Qed.

Lemma occurrences_app n l l' :
  occurrences n (l ++ l') = occurrences n l + occurrences n l'.
Proof. unfold occurrences. by rewrite filter_app, length_app. Qed.

Section Leaves.
Variable fs : string → option (list line).
Variable groups : group → option (list string).
Hypothesis Hcarries : carries fs groups.

Lemma include_leaf depth g s :
  include fs (S depth) (group_path g) s
  = match groups g with
    | Some ds => Ok (declare_all ds s)
    | None => Err (FileNotFound (group_path g)) s
    end.
Proof.
  cbn [include]. rewrite Hcarries.
  destruct (groups g) as [ds|]; cbn; [apply run_leaf_file | done].
Qed.

Lemma leaf_self_contained depth g : self_contained fs depth (group_path g).
Proof.
  intros s s'. destruct depth as [|depth]; [done|].
  rewrite !include_leaf. by destruct (groups g).
Qed.

Lemma leaf_resolvable depth g :
  is_Some (groups g) → resolvable fs (S depth) (group_path g).
Proof. intros [ds Hg] s. by rewrite include_leaf, Hg. Qed.

(** A leaf does not look at the macro table. *)
Lemma include_leaf_define depth g m s :
  include fs depth (group_path g) (define m s)
  = map_state (define m) (include fs depth (group_path g) s).
Proof.
  destruct depth as [|depth]; [done|].
  rewrite !include_leaf. by destruct (groups g).
Qed.

Lemma each_leaf_define depth gs m s :
  each (include fs depth) (group_path <$> gs) (define m s)
  = map_state (define m) (each (include fs depth) (group_path <$> gs) s).
Proof.
  revert s. induction gs as [|g gs IH]; intros s; [done|].
  cbn [fmap list_fmap each]. rewrite include_leaf_define.
  destruct (include fs depth (group_path g) s) as [s1|e s1];
    cbn [map_state and_then]; [apply IH | done].
Qed.

Lemma include_leaf_macros depth g s :
  macros (state_of (include fs depth (group_path g) s)) = macros s.
Proof.
  destruct depth as [|depth]; [done|].
  rewrite include_leaf. by destruct (groups g).
Qed.

(** When a run over leaves succeeds, it has appended their declarations,
    group after group. *)
Lemma each_leaf_Ok depth gs s s' :
  each (include fs depth) (group_path <$> gs) s = Ok s' →
  s' = declare_all (mjoin (group_decls groups <$> gs)) s.
Proof.
  revert s. induction gs as [|g gs IH]; intros s.
  - intros [= <-]. by rewrite declare_all_nil.
  - cbn [fmap list_fmap each]. destruct depth as [|depth]; [done|].
    rewrite include_leaf. unfold group_decls at 1.
    destruct (groups g) as [ds|]; cbn [and_then default]; [|done].
    intros Hrest%IH. by rewrite Hrest, declare_all_app.
Qed.

Lemma each_leaf_present depth gs s :
  (∀ g, g ∈ gs → is_Some (groups g)) →
  each (include fs (S depth)) (group_path <$> gs) s
  = Ok (declare_all (mjoin (group_decls groups <$> gs)) s).
Proof.
  intros Hall.
  destruct (each_all_ok (include fs (S depth)) (group_path <$> gs)) with (s := s)
    as (s' & Hs').
  - intros p (g & -> & Hg)%list_elem_of_fmap. by apply leaf_resolvable, Hall.
  - rewrite Hs'. f_equal. by eapply each_leaf_Ok.
Qed.

(** C1, as amended: let the thirteen headers be leaves with declarations
    of their own, none of them visible yet, and let the wrapper's guard
    be undefined.  Then resolving the wrapper gives the outcome of
    resolving the thirteen groups themselves once each, in the order of
    the text, up to the guard being recorded; and when it succeeds, it
    has appended the declarations of the groups and each of them has been
    declared exactly once. *)
Theorem header_resolves_groups_once (depth : nat) (s : cu_state) :
  independent groups →
  unprocessed groups s →
  GUARD ∉ macros s →
  header_acts_as_groups fs depth s
  ∧ resolve fs depth s
    = map_state (define GUARD) (each (include fs depth) group_paths s)
  ∧ ∀ s', resolve fs depth s = Ok s' →
      visible s' = visible s ++ all_decls groups
      ∧ ∀ n, n ∈ all_decls groups → occurrences n (visible s') = 1.
Proof.
  intros Hind Hun Hfirst.
  assert (Hres : resolve fs depth s
    = map_state (define GUARD) (each (include fs depth) group_paths s)).
  { rewrite resolve_first by done. apply each_leaf_define. }
  split; [|split; [exact Hres|]].
  - unfold header_acts_as_groups, same_up_to_guard. rewrite Hres.
    destruct (each (include fs depth) group_paths s); cbn [map_state];
      by rewrite define_define.
  - intros s' Hs'. rewrite resolve_first in Hs' by done.
    apply each_leaf_Ok in Hs' as ->. fold (all_decls groups).
    split; [done|]. intros n Hn. cbn [declare_all visible define].
    rewrite occurrences_app, (occurrences_absent n (visible s))
      by (by apply (proj1 (Forall_forall _ _) Hun)).
    by rewrite occurrences_NoDup.
Qed.

(** C3, as amended: let the thirteen headers be there, each a leaf.
    Resolving the wrapper from a fresh compilation unit succeeds, and the
    declarations visible afterwards are those of the thirteen groups in the
    order of the manifest: every declaration of every group, and no other.
    Nothing has been emitted.  The one name the wrapper brings in besides
    is its own guard macro. *)
Theorem fresh_exposes_exactly_the_groups (depth : nat) :
  (∀ g, is_Some (groups g)) →
  0 < depth →
  ∃ s', resolve fs depth fresh = Ok s'
    ∧ visible s' = all_decls groups
    ∧ (∀ n, n ∈ visible s' ↔ ∃ g, n ∈ group_decls groups g)
    ∧ emitted s' = []
    ∧ macros s' = {[GUARD]}
    ∧ (∀ n, introduces fresh s' n
            ↔ (∃ g, n ∈ group_decls groups g) ∨ n = GUARD).
Proof.
  intros Hall Hdepth. destruct depth as [|depth]; [lia|].
  assert (Hvis : ∀ n, n ∈ all_decls groups ↔ ∃ g, n ∈ group_decls groups g).
  { intros n. unfold all_decls. rewrite list_elem_of_join. split.
    - intros (ds & Hn & (g & -> & _)%list_elem_of_fmap). by exists g.
    - intros (g & Hn). exists (group_decls groups g). split; [done|].
      apply list_elem_of_fmap. exists g.
      split; [done | apply elem_of_manifest]. }
  eexists. split.
  { rewrite resolve_first by apply not_elem_of_empty.
    apply each_leaf_present. auto. }
  cbn [declare_all visible emitted macros define fresh app].
  fold (all_decls groups).
  split; [done|]. split; [exact Hvis|]. split; [done|].
  split; [apply (right_id_L ∅ (∪))|].
  intros n. unfold introduces.
  cbn [declare_all visible emitted macros define fresh app].
  fold (all_decls groups).
  rewrite Hvis, elem_of_union, elem_of_singleton. split.
  - intros [[Hn _]|[[->|Hn] _]]; [by left | by right |].
    by apply not_elem_of_empty in Hn.
  - intros [Hn| ->].
    + left. split; [done | apply not_elem_of_nil].
    + right. split; [by left | apply not_elem_of_empty].
Qed.

(** In a first resolution over leaves, with the groups before some group
    [g] present and [g] itself missing, the wrapper stops at [g] with the
    guard defined and the declarations of the groups before [g] visible. *)
Lemma failure_state_leaves (depth : nat) (s : cu_state)
    (before after : list group) (g : group) :
  GUARD ∉ macros s →
  manifest = before ++ g :: after →
  (∀ g', g' ∈ before → is_Some (groups g')) →
  groups g = None →
  resolve fs (S depth) s
  = Err (FileNotFound (group_path g))
        (declare_all (mjoin (group_decls groups <$> before)) (define GUARD s)).
Proof.
  intros Hfirst Hsplit Hbefore Hmissing.
  rewrite resolve_first by done. unfold group_paths.
  rewrite Hsplit, fmap_app, fmap_cons, each_app.
  rewrite each_leaf_present by done. cbn [and_then each].
  by rewrite include_leaf, Hmissing.
Qed.
End Leaves.

(** * The guard *)

(** C9: resolving the wrapper leaves its guard macro defined, whatever the
    files behind it do and whether or not they resolve.  The guard is the
    wrapper's own: it is none of the names under which the wrapper reaches
    its thirteen groups, and a group that is a leaf of declarations never
    defines it.  Once the guard is defined it is still defined after any
    number of further resolutions. *)
Theorem guard_defined_invariant (fs : string → option (list line)) (depth : nat) :
  (∀ s, GUARD ∈ macros (state_of (resolve fs depth s)))
  ∧ (GUARD ∉ group_paths)
  ∧ (∀ groups, carries fs groups →
       ∀ g s, GUARD ∉ macros s →
              GUARD ∉ macros (state_of (include fs depth (group_path g) s)))
  ∧ (∀ n s, GUARD ∈ macros s →
            GUARD ∈ macros (state_of (resolve_n fs depth n s))).
Proof.
  split; [apply resolve_defines_guard|].
  split; [apply guard_not_a_group_path|].
  split.
  - intros groups Hcarries g s Hnin.
    by rewrite (include_leaf_macros fs groups Hcarries).
  - intros n s Hin. by rewrite resolve_n_guarded.
Qed.

(** * The sample file system *)

Lemma leaf_fs_carries groups : carries (leaf_fs groups) groups.
Proof. intros g. by destruct g. Qed.

Lemma leaf_fs_files groups p ls :
  leaf_fs groups p = Some ls → ∃ ds, ls = leaf_file ds.
Proof.
  unfold leaf_fs. destruct (group_of_path p) as [g|]; cbn; [|done].
  destruct (groups g) as [ds|]; cbn; [|done].
  intros [= <-]. by exists ds.
Qed.

Lemma leaf_file_emits_nothing ds : emits_nothing (leaf_file ds).
Proof. by apply Forall_fmap, Forall_true. Qed.

Lemma leaf_fs_emits_nothing groups p ls :
  leaf_fs groups p = Some ls → emits_nothing ls.
Proof. intros (ds & ->)%leaf_fs_files. apply leaf_file_emits_nothing. Qed.

Lemma sample_independent : independent sample_groups.
Proof. apply (bool_decide_unpack _). by vm_compute. Qed.

Lemma unprocessed_nothing_visible groups s :
  visible s = [] → unprocessed groups s.
Proof.
  intros Hs. apply Forall_forall. intros n _. rewrite Hs. apply not_elem_of_nil.
Qed.

Lemma guard_undefined_fresh : GUARD ∉ macros fresh.
Proof. apply not_elem_of_empty. Qed.

Lemma event_removed_others g : g ≠ Event → is_Some (event_removed g).
Proof.
  intros Hg. unfold event_removed, without.
  rewrite decide_False by done. by eexists.
Qed.

(** The machine at work on the sample. *)
Example resolve_sample_visible :
  visible (state_of (resolve sample_fs 1 fresh))
  = [ "LiteRtLogger"; "LiteRtGetMinLoggerSeverity"; "LiteRtStatus";
      "LiteRtGetStatusString"; "LiteRtCompiledModel"; "LiteRtRunCompiledModel";
      "LiteRtEnvironment"; "LiteRtEnvironmentOptions"; "LiteRtEvent";
      "LiteRtMetrics"; "LiteRtModel"; "LiteRtGetAddFusedActivationOption";
      "LiteRtOpaqueOptions"; "LiteRtOptions"; "LiteRtTensorBuffer";
      "LiteRtTensorBufferRequirements" ].
Proof. reflexivity. Qed.

Example resolve_sample_diag : diag (resolve sample_fs 1 fresh) = None.
Proof. reflexivity. Qed.

Example resolve_event_removed_diag :
  diag (resolve event_removed_fs 1 fresh)
  = Some (FileNotFound "../c/litert_event.h").
Proof. reflexivity. Qed.

Example resolve_event_removed_visible :
  visible (state_of (resolve event_removed_fs 1 fresh)) = sample_decls_upto 5.
Proof. reflexivity. Qed.

Example resolve_no_depth_diag :
  diag (resolve sample_fs 0 fresh)
  = Some (IncludeTooDeep "../c/internal/litert_logging.h").
Proof. reflexivity. Qed.

Example guard_predefined_after_failure :
  state_of (resolve (leaf_fs (without Logging sample_groups)) 1 fresh)
  = guard_predefined.
Proof. reflexivity. Qed.

(** Guarded headers that include one another: the common header is read
    once, the second include of it is skipped under its own guard, and
    the nesting needs two levels. *)
Example resolve_nested_visible :
  visible (state_of (resolve nested_fs 2 fresh)) = ["LiteRtStatus"; "LiteRtModel"]
  ∧ diag (resolve nested_fs 2 fresh) = None
  ∧ diag (resolve nested_fs 1 fresh)
    = Some (IncludeTooDeep "../c/litert_common.h").
Proof. repeat split; reflexivity. Qed.

Example resolve_nested_twice :
  resolve_n nested_fs 2 2 fresh = resolve nested_fs 2 fresh.
Proof. by vm_compute. Qed.

(** Without the guard, the thirteen lines read twice declare every name
    twice: the guard is what keeps a second resolution from doing so. *)
Example unguarded_twice_declares_twice :
  occurrences "LiteRtStatus"
    (visible (state_of (run (include sample_fs 1)
                            (wrapper_includes ++ wrapper_includes) [] fresh)))
  = 2
  ∧ occurrences "LiteRtStatus"
      (visible (state_of (resolve_n sample_fs 1 2 fresh)))
    = 1.
Proof. split; reflexivity. Qed.

(** * The theorems at work on the sample *)

Lemma resolve_idempotent_sample :
  (1 ≤ 3)
  ∧ resolve_n sample_fs 1 3 fresh = resolve sample_fs 1 fresh
  ∧ resolve sample_fs 1 (state_of (resolve sample_fs 1 fresh))
    = Ok (state_of (resolve sample_fs 1 fresh)).
Proof.
  split; [lia|]. apply (resolve_idempotent sample_fs 1 3 fresh). lia.
Defined.

Lemma failure_not_atomic_sample :
  (GUARD ∉ macros fresh)
  ∧ (1 ≤ 6 ≤ 13)
  ∧ group_paths !! (6 - 1) = Some "../c/litert_event.h"
  ∧ each (include event_removed_fs 1) (take (6 - 1) group_paths)
         (define GUARD fresh)
    = Ok (declare_all (sample_decls_upto 5) (define GUARD fresh))
  ∧ include event_removed_fs 1 "../c/litert_event.h"
            (declare_all (sample_decls_upto 5) (define GUARD fresh))
    = Err (FileNotFound "../c/litert_event.h")
          (declare_all (sample_decls_upto 5) (define GUARD fresh))
  ∧ resolve event_removed_fs 1 fresh
    = Err (FileNotFound "../c/litert_event.h")
          (declare_all (sample_decls_upto 5) (define GUARD fresh))
  ∧ GUARD ∈ macros (declare_all (sample_decls_upto 5) (define GUARD fresh))
  ∧ (visible (declare_all (sample_decls_upto 5) (define GUARD fresh))
       `prefix_of`
     visible (declare_all (sample_decls_upto 5) (define GUARD fresh)))
  ∧ (declare_all (sample_decls_upto 5) (define GUARD fresh) ≠ fresh).
Proof.
  assert (H1 : GUARD ∉ macros fresh) by apply guard_undefined_fresh.
  assert (H2 : 1 ≤ 6 ≤ 13) by lia.
  assert (H3 : group_paths !! (6 - 1) = Some "../c/litert_event.h")
    by reflexivity.
  assert (H4 : each (include event_removed_fs 1) (take (6 - 1) group_paths)
                    (define GUARD fresh)
               = Ok (declare_all (sample_decls_upto 5) (define GUARD fresh)))
    by reflexivity.
  assert (H5 : include event_removed_fs 1 "../c/litert_event.h"
                       (declare_all (sample_decls_upto 5) (define GUARD fresh))
               = Err (FileNotFound "../c/litert_event.h")
                     (declare_all (sample_decls_upto 5) (define GUARD fresh)))
    by reflexivity.
  do 5 (split; [assumption|]).
  exact (failure_not_atomic event_removed_fs 1 fresh 6 _ _ _ _ H1 H2 H3 H4 H5).
Defined.

Lemma missing_group_detected_sample :
  (GUARD ∉ macros fresh)
  ∧ event_removed_fs (group_path Event) = None
  ∧ (∀ g', g' ≠ Event → resolvable event_removed_fs 1 (group_path g'))
  ∧ diag (resolve event_removed_fs 1 fresh)
    = Some (FileNotFound (group_path Event))
  ∧ ∀ g', FileNotFound (group_path g') = FileNotFound (group_path Event) →
          g' = Event.
Proof.
  assert (H1 : GUARD ∉ macros fresh) by apply guard_undefined_fresh.
  assert (H2 : event_removed_fs (group_path Event) = None) by reflexivity.
  assert (H3 : ∀ g', g' ≠ Event → resolvable event_removed_fs 1 (group_path g')).
  { intros g' Hg'.
    apply (leaf_resolvable _ _ (leaf_fs_carries event_removed)).
    by apply event_removed_others. }
  do 3 (split; [assumption|]).
  exact (missing_group_detected event_removed_fs 1 fresh Event H1 H2 H3).
Defined.

Lemma failure_is_group_failure_sample :
  (∀ g, self_contained event_removed_fs 1 (group_path g))
  ∧ diag (resolve event_removed_fs 1 fresh)
    = (if bool_decide (GUARD ∈ macros fresh) then None
       else first_failure (include event_removed_fs 1) group_paths fresh)
  ∧ (GUARD ∉ macros fresh →
     ¬ is_ok (resolve event_removed_fs 1 fresh)
     ↔ ∃ g, ¬ is_ok (include event_removed_fs 1 (group_path g) fresh))
  ∧ (∀ e, diag (resolve event_removed_fs 1 fresh) = Some e →
          ∃ g, diag (include event_removed_fs 1 (group_path g) fresh) = Some e).
Proof.
  assert (H1 : ∀ g, self_contained event_removed_fs 1 (group_path g)).
  { intros g. apply (leaf_self_contained _ _ (leaf_fs_carries event_removed)). }
  split; [assumption|].
  exact (failure_is_group_failure event_removed_fs 1 fresh H1).
Defined.

Lemma order_independent_sample :
  reverse wrapper_includes ≡ₚ wrapper_includes
  ∧ (∀ g, self_contained sample_fs 1 (group_path g))
  ∧ (is_ok (run (include sample_fs 1)
                (wrapper_with (reverse wrapper_includes)) [] fresh)
     ↔ is_ok (resolve sample_fs 1 fresh)).
Proof.
  assert (H1 : reverse wrapper_includes ≡ₚ wrapper_includes)
    by apply reverse_Permutation.
  assert (H2 : ∀ g, self_contained sample_fs 1 (group_path g)).
  { intros g. apply (leaf_self_contained _ _ (leaf_fs_carries sample_groups)). }
  do 2 (split; [assumption|]).
  exact (order_independent sample_fs 1 _ fresh H1 H2).
Defined.

Lemma resolve_frame_sample :
  (∀ p ls, sample_fs p = Some ls → emits_nothing ls)
  ∧ emits_nothing wrapper_h
  ∧ emitted (state_of (resolve sample_fs 1 fresh)) = emitted fresh
  ∧ extends fresh (state_of (resolve sample_fs 1 fresh))
  ∧ ((∀ p ls, sample_fs p = Some ls → defines_nothing ls) →
     macros (state_of (resolve sample_fs 1 fresh)) ∖ {[GUARD]}
     = macros fresh ∖ {[GUARD]}).
Proof.
  assert (H1 : ∀ p ls, sample_fs p = Some ls → emits_nothing ls)
    by apply leaf_fs_emits_nothing.
  split; [assumption|].
  exact (resolve_frame sample_fs 1 fresh H1).
Defined.

Lemma header_resolves_groups_once_sample :
  carries sample_fs sample_groups
  ∧ independent sample_groups
  ∧ unprocessed sample_groups fresh
  ∧ (GUARD ∉ macros fresh)
  ∧ header_acts_as_groups sample_fs 1 fresh
  ∧ resolve sample_fs 1 fresh
    = map_state (define GUARD) (each (include sample_fs 1) group_paths fresh)
  ∧ ∀ s', resolve sample_fs 1 fresh = Ok s' →
      visible s' = visible fresh ++ all_decls sample_groups
      ∧ ∀ n, n ∈ all_decls sample_groups → occurrences n (visible s') = 1.
Proof.
  assert (H1 : carries sample_fs sample_groups) by apply leaf_fs_carries.
  assert (H2 : independent sample_groups) by apply sample_independent.
  assert (H3 : unprocessed sample_groups fresh)
    by by apply unprocessed_nothing_visible.
  assert (H4 : GUARD ∉ macros fresh) by apply guard_undefined_fresh.
  do 4 (split; [assumption|]).
  exact (header_resolves_groups_once sample_fs sample_groups H1 1 fresh H2 H3 H4).
Defined.

Lemma fresh_exposes_exactly_the_groups_sample :
  carries sample_fs sample_groups
  ∧ (∀ g, is_Some (sample_groups g))
  ∧ 0 < 1
  ∧ ∃ s', resolve sample_fs 1 fresh = Ok s'
      ∧ visible s' = all_decls sample_groups
      ∧ (∀ n, n ∈ visible s' ↔ ∃ g, n ∈ group_decls sample_groups g)
      ∧ emitted s' = []
      ∧ macros s' = {[GUARD]}
      ∧ (∀ n, introduces fresh s' n
              ↔ (∃ g, n ∈ group_decls sample_groups g) ∨ n = GUARD).
Proof.
  assert (H1 : carries sample_fs sample_groups) by apply leaf_fs_carries.
  assert (H2 : ∀ g, is_Some (sample_groups g)) by (intros g; by eexists).
  assert (H3 : 0 < 1) by lia.
  do 3 (split; [assumption|]).
  exact (fresh_exposes_exactly_the_groups sample_fs sample_groups H1 1 H2 H3).
Defined.

(** * Where the guard is already defined *)

(** C1, as stated, fails in a compilation unit where the wrapper's guard is
    defined although no group has been processed: the groups are leaves
    with names of their own, none of their declarations is visible, yet
    resolving the wrapper does nothing while resolving the groups makes
    their declarations visible. *)
Lemma header_skips_groups_when_guard_predefined :
  carries sample_fs sample_groups
  ∧ independent sample_groups
  ∧ unprocessed sample_groups guard_predefined
  ∧ resolve sample_fs 1 guard_predefined = Ok guard_predefined
  ∧ visible (state_of (each (include sample_fs 1) group_paths guard_predefined))
    = all_decls sample_groups
  ∧ ¬ header_acts_as_groups sample_fs 1 guard_predefined.
Proof.
  split; [apply leaf_fs_carries|].
  split; [apply sample_independent|].
  split; [by apply unprocessed_nothing_visible|].
  split; [reflexivity|]. split; [reflexivity|].
  unfold header_acts_as_groups, same_up_to_guard. intros Heq.
  apply (f_equal (λ o, visible (state_of o))) in Heq.
  vm_compute in Heq. discriminate Heq.
Qed.

(** C4, as stated, fails there too: a group is missing and does not
    resolve, and the wrapper resolves all the same.  The same happens in
    the state a first resolution leaves when it stops at the missing
    group: the guard is defined by then. *)
Lemma no_failure_when_guard_predefined :
  (∀ g, self_contained event_removed_fs 1 (group_path g))
  ∧ event_removed_fs (group_path Event) = None
  ∧ ¬ is_ok (include event_removed_fs 1 (group_path Event) guard_predefined)
  ∧ is_ok (resolve event_removed_fs 1 guard_predefined)
  ∧ ¬ (¬ is_ok (resolve event_removed_fs 1 guard_predefined)
       ↔ ∃ g, ¬ is_ok (include event_removed_fs 1 (group_path g)
                               guard_predefined))
  ∧ is_ok (resolve event_removed_fs 1 after_failed_resolution).
Proof.
  split.
  { intros g. apply (leaf_self_contained _ _ (leaf_fs_carries event_removed)). }
  split; [reflexivity|]. split; [done|]. split; [reflexivity|].
  split.
  - intros [_ Hif]. apply Hif; [|reflexivity].
    exists Event. done.
  - unfold after_failed_resolution.
    by rewrite resolve_guarded by apply resolve_defines_guard.
Qed.

(** C5, as stated, fails there as well: one header removed, the other
    twelve resolvable, and resolving the wrapper succeeds; so it does in
    the state a first resolution leaves when it stops at the removed
    header. *)
Lemma missing_group_unnoticed_when_guard_predefined :
  event_removed_fs (group_path Event) = None
  ∧ (∀ g', g' ≠ Event → resolvable event_removed_fs 1 (group_path g'))
  ∧ resolve event_removed_fs 1 guard_predefined = Ok guard_predefined
  ∧ diag (resolve event_removed_fs 1 guard_predefined)
    ≠ Some (FileNotFound (group_path Event))
  ∧ resolve event_removed_fs 1 after_failed_resolution
    = Ok after_failed_resolution.
Proof.
  split; [reflexivity|]. split.
  { intros g' Hg'.
    apply (leaf_resolvable _ _ (leaf_fs_carries event_removed)).
    by apply event_removed_others. }
  split; [reflexivity|]. split.
  - intros Heq. vm_compute in Heq. discriminate Heq.
  - apply resolve_guarded, resolve_defines_guard.
Qed.

(** C3, as stated, fails on the guard: resolved from a fresh compilation
    unit, the wrapper brings in its guard macro, which is a declaration of
    none of the thirteen groups. *)
Lemma guard_is_a_name_outside_the_groups :
  carries sample_fs sample_groups
  ∧ (∀ g, is_Some (sample_groups g))
  ∧ ∃ s', resolve sample_fs 1 fresh = Ok s'
      ∧ introduces fresh s' GUARD
      ∧ (∀ g, GUARD ∉ group_decls sample_groups g)
      ∧ ¬ (∀ n, introduces fresh s' n → ∃ g, n ∈ group_decls sample_groups g).
Proof.
  split; [apply leaf_fs_carries|].
  split; [intros g; by eexists|].
  assert (Hout : ∀ g, GUARD ∉ group_decls sample_groups g).
  { intros g. destruct g; apply (bool_decide_unpack _); by vm_compute. }
  exists (state_of (resolve sample_fs 1 fresh)).
  split; [vm_compute; reflexivity|].
  assert (Hin : introduces fresh (state_of (resolve sample_fs 1 fresh)) GUARD).
  { right. split; [apply resolve_defines_guard | apply not_elem_of_empty]. }
  split; [exact Hin|]. split; [exact Hout|].
  intros Hall. destruct (Hall GUARD Hin) as (g & Hg). by apply (Hout g).
Qed.

(** * Further properties of the header *)

Lemma each_Err_inv (inc : string → cu_state → outcome) (ps : list string)
    (s : cu_state) (e : diagnostic) (st : cu_state) :
  each inc ps s = Err e st →
  ∃ k p s1, ps !! k = Some p
    ∧ each inc (take k ps) s = Ok s1
    ∧ inc p s1 = Err e st.
Proof.
  revert s. induction ps as [|q ps IH]; intros s; [done|].
  cbn [each]. destruct (inc q s) as [s'|e' s'] eqn:Hq; cbn [and_then].
  - intros (k & p & s1 & Hk & Hbefore & Hfail)%IH.
    exists (S k), p, s1. cbn [take each]. by rewrite Hq.
  - intros [= -> ->]. by exists 0, q, s.
Qed.

(** X1: the wrapper has no failure of its own.  Whatever the file system
    holds, a resolution that stops at a diagnostic was a first resolution,
    and the diagnostic and the state it stops in are those of one of its
    thirteen include lines, reached after the lines before it resolved. *)
Theorem every_failure_is_an_include (fs : string → option (list line))
    (depth : nat) (s : cu_state) (e : diagnostic) (st : cu_state) :
  resolve fs depth s = Err e st →
  (GUARD ∉ macros s)
  ∧ ∃ k p s1, group_paths !! k = Some p
      ∧ each (include fs depth) (take k group_paths) (define GUARD s) = Ok s1
      ∧ include fs depth p s1 = Err e st.
Proof.
  rewrite resolve_unfold. case_bool_decide as Hin; [done|].
  intros Herr. split; [done|]. by apply each_Err_inv.
Qed.

(** X2: the header that fails first in the order of the text is the one
    reported.  In a first resolution, when the headers before some group
    resolve and the header of that group fails with [e] in every state,
    the wrapper reports [e], whatever the headers after it are. *)
Theorem earliest_failure_reported (fs : string → option (list line))
    (depth : nat) (s : cu_state) (before after : list group) (g : group)
    (e : diagnostic) :
  GUARD ∉ macros s →
  manifest = before ++ g :: after →
  (∀ g', g' ∈ before → resolvable fs depth (group_path g')) →
  (∀ s1, diag (include fs depth (group_path g) s1) = Some e) →
  diag (resolve fs depth s) = Some e.
Proof.
  intros Hfirst Hsplit Hbefore Hfail.
  rewrite resolve_first by done. unfold group_paths.
  rewrite Hsplit, fmap_app, fmap_cons, each_app.
  destruct (each_all_ok (include fs depth) (group_path <$> before))
    with (s := define GUARD s) as (s1 & Hs1).
  { intros p (g' & -> & Hg')%list_elem_of_fmap. by apply Hbefore. }
  rewrite Hs1. cbn [and_then each].
  specialize (Hfail s1).
  by destruct (include fs depth (group_path g) s1).
Qed.


Example resolve_cyclic :
  diag (resolve cyclic_fs 2 fresh) = None
  ∧ visible (state_of (resolve cyclic_fs 2 fresh))
    = visible (state_of (resolve sample_fs 1 fresh)).
Proof. split; vm_compute; reflexivity. Qed.

Section Budget.
Variable fs : string → option (list line).


End Budget.


(** X5: the wrapper is a closed unit of text.  Spliced in front of any
    text, under any stack of open conditionals, it acts as its own
    resolution followed by the rest when the text is live, and is skipped
    when the text is dead; either way the rest is read under the stack of
    conditionals that was open before the wrapper. *)
Theorem wrapper_h_spliced (inc : string → cu_state → outcome)
    (rest : list line) (conds : list bool) (s : cu_state) :
  run inc (wrapper_h ++ rest) conds s
  = if live conds then and_then (run inc wrapper_h [] s) (run inc rest conds)
    else run inc rest conds s.
Proof.
  rewrite (run_guarded inc GUARD group_paths s : run inc wrapper_h [] s = _).
  rewrite wrapper_h_eq. unfold wrapper_with, guarded.
  cbn [app run]. rewrite <- app_assoc. cbn [app].
  destruct (live conds) eqn:Hlive.
  - destruct (decide (GUARD ∈ macros s)) as [Hin|Hnin].
    + rewrite (bool_decide_eq_true_2 _ Hin).
      rewrite bool_decide_eq_false_2 by (by intros Hn; apply Hn).
      cbn [live forallb id andb].
      rewrite run_includes_dead by done. by cbn [run and_then].
    + rewrite (bool_decide_eq_false_2 _ Hnin).
      rewrite (bool_decide_eq_true_2 _ Hnin).
      assert (Hlive' : live (true :: conds) = true) by done.
      rewrite Hlive', run_includes_live by done.
      by cbn [run].
  - assert (Hdead : ∀ b, live (b :: conds) = false).
    { intros b. cbn [live forallb]. fold (live conds).
      rewrite Hlive. apply andb_false_r. }
    rewrite Hdead, run_includes_dead by done. by cbn [run].
Qed.

(** * The further properties at work on the sample *)

Lemma every_failure_is_an_include_sample :
  resolve event_removed_fs 1 fresh
  = Err (FileNotFound "../c/litert_event.h")
        (declare_all (sample_decls_upto 5) (define GUARD fresh))
  ∧ (GUARD ∉ macros fresh)
  ∧ ∃ k p s1, group_paths !! k = Some p
      ∧ each (include event_removed_fs 1) (take k group_paths)
             (define GUARD fresh) = Ok s1
      ∧ include event_removed_fs 1 p s1
        = Err (FileNotFound "../c/litert_event.h")
              (declare_all (sample_decls_upto 5) (define GUARD fresh)).
Proof.
  assert (H1 : resolve event_removed_fs 1 fresh
               = Err (FileNotFound "../c/litert_event.h")
                     (declare_all (sample_decls_upto 5) (define GUARD fresh)))
    by (vm_compute; reflexivity).
  split; [exact H1|].
  exact (every_failure_is_an_include event_removed_fs 1 fresh _ _ H1).
Defined.

Lemma earliest_failure_reported_sample :
  (GUARD ∉ macros fresh)
  ∧ manifest = take 5 manifest ++ Event :: drop 6 manifest
  ∧ (∀ g', g' ∈ take 5 manifest →
           resolvable event_and_model_removed_fs 1 (group_path g'))
  ∧ (∀ s1, diag (include event_and_model_removed_fs 1 (group_path Event) s1)
           = Some (FileNotFound (group_path Event)))
  ∧ diag (resolve event_and_model_removed_fs 1 fresh)
    = Some (FileNotFound (group_path Event)).
Proof.
  assert (H1 : GUARD ∉ macros fresh) by apply guard_undefined_fresh.
  assert (H2 : manifest = take 5 manifest ++ Event :: drop 6 manifest)
    by reflexivity.
  assert (Hc : carries event_and_model_removed_fs (without Model event_removed))
    by apply leaf_fs_carries.
  assert (H3 : ∀ g', g' ∈ take 5 manifest →
                 resolvable event_and_model_removed_fs 1 (group_path g')).
  { intros g' Hg'. apply (leaf_resolvable _ _ Hc). cbn [take manifest] in Hg'.
    repeat (apply elem_of_cons in Hg' as [->|Hg']; [by eexists|]).
    by apply elem_of_nil in Hg'. }
  assert (H4 : ∀ s1, diag (include event_and_model_removed_fs 1
                                   (group_path Event) s1)
                     = Some (FileNotFound (group_path Event))).
  { intros s1. by rewrite (include_leaf _ _ Hc). }
  do 4 (split; [assumption|]).
  exact (earliest_failure_reported event_and_model_removed_fs 1 fresh
           (take 5 manifest) (drop 6 manifest) Event _ H1 H2 H3 H4).
Defined.


